(** * torch/csrc/utils/hash.h

    A shallow embedding of the hashing utilities of [torch::hash]:
    the mixing primitive [hash_combine], the SFINAE dispatch
    [_hash_detail::dispatch_hash], the [torch::hash] primary template and
    its two partial specialisations (for [std::tuple] and [std::vector]),
    and the variadic entry point [get_hash].

    [std::size_t] is an unsigned integer of some width [w]; it is modelled
    as a [Z] in the range [0 .. 2^w - 1], every arithmetic operation
    reducing its result modulo [2^w].

    Which overload or specialisation a call selects is decided by the
    compiler, not at run time.  The embedding keeps the two stages apart:
    resolving the hasher of a type yields either a function or a
    compile-time error, and only a resolved function can be applied to a
    value. *)

From Stdlib Require Import ZArith List Lia Bool.
Import ListNotations.

Local Open Scope Z_scope.

(** ** Template resolution: results and errors *)

(** The ways in which instantiating a hasher can be rejected. *)
Inductive error : Type :=
| no_matching_function      (* no overload of dispatch_hash is viable *)
| ambiguous_call            (* more than one overload is viable *)
| tuple_index_out_of_range. (* std::get<idx> beyond the tuple's arity *)

Inductive result (A : Type) : Type :=
| Ok (a : A)
| CompileError (e : error).

Arguments Ok {A} a.
Arguments CompileError {A} e.

Definition bind {A B : Type} (c : result A) (k : A -> result B) : result B :=
  match c with
  | Ok a => k a
  | CompileError e => CompileError e
  end.

Notation "x <- c ;; k" := (bind c (fun x => k))
  (at level 61, c at next level, right associativity).

Definition is_ok {A : Type} (c : result A) : bool :=
  match c with Ok _ => true | CompileError _ => false end.

Definition size_t : Type := Z.

(** A resolved hasher for values of type [T]: the outcome of instantiating
    [torch::hash<T>::operator()]. *)
Definition Hasher (T : Type) : Type := result (T -> size_t).

(** Applying a hasher to a value; there is a digest only if the hasher
    was resolved. *)
Definition run {T : Type} (h : Hasher T) (o : T) : result size_t :=
  f <- h ;; Ok (f o).

(** ** What dispatch_hash inspects of a type

    The three overloads of [dispatch_hash] are guarded by
    [std::is_enum<T>], by the well-formedness of [std::hash<T>()(o)] and by
    the well-formedness of [T::hash(o)].

    An enumeration has an underlying integer type [R], reached by
    [static_cast<R>], for which [std::hash<R>] exists; from C++14 on
    [std::hash<T>] may exist for the enumeration itself.  An enumeration has
    no member functions, so [T::hash(o)] is never well-formed for it.

    Any other type may or may not have a [std::hash<T>] specialisation and
    may or may not declare a static [T::hash]. *)
Inductive type_traits (T : Type) : Type :=
| enum_type (R : Type) (static_cast : T -> R) (std_hash_R : R -> Z)
            (std_hash_T : option (T -> Z))
| non_enum_type (std_hash : option (T -> Z)) (static_hash : option (T -> Z)).

Arguments enum_type {T} R static_cast std_hash_R std_hash_T.
Arguments non_enum_type {T} std_hash static_hash.

(** An integer type: hashed by [std::hash], no static members. *)
Definition integral_type {R : Type} (std_hash_R : R -> Z) : type_traits R :=
  non_enum_type (Some std_hash_R) None.

(** Overload resolution among function templates whose parameter lists are
    identical: the candidates removed by SFINAE are dropped, and the call is
    well-formed only if exactly one candidate is left. *)
Definition viable {F : Type} (candidates : list (option F)) : list F :=
  flat_map (fun c => match c with Some f => [f] | None => [] end) candidates.

Definition resolve_overload {F : Type} (candidates : list (option F)) : result F :=
  match viable candidates with
  | [] => CompileError no_matching_function
  | [f] => Ok f
  | _ :: _ :: _ => CompileError ambiguous_call
  end.

(** ** The types that torch::hash is instantiated at

    [Plain T tr] is a type handled by the primary template; [Tuple ts] is
    [std::tuple<Types...>] and [Vector t] is [std::vector<T>].  A tuple
    element is either held by value or is a [const T&], as in the tuple
    built by [std::tie]. *)
Inductive ref_qualifier : Type := by_value | const_lvalue_ref.

Inductive type : Type :=
| Plain (T : Type) (tr : type_traits T)
| Tuple (ts : types)
| Vector (t : type)
with types : Type :=
| TNil
| TCons (q : ref_qualifier) (t : type) (ts : types).

Scheme type_mut := Induction for type Sort Prop
  with types_mut := Induction for types Sort Prop.

Combined Scheme type_types_ind from type_mut, types_mut.

(** The values of a type.  A reference is modelled by the value it refers
    to: nothing here mutates a value or observes its address. *)
Fixpoint denote (t : type) : Type :=
  match t with
  | Plain T _ => T
  | Tuple ts => denotes ts
  | Vector t => list (denote t)
  end
with denotes (ts : types) : Type :=
  match ts with
  | TNil => unit
  | TCons _ t ts => (denote t * denotes ts)%type
  end.

(** sizeof...(Types) *)
Fixpoint arity (ts : types) : nat :=
  match ts with
  | TNil => O
  | TCons _ _ ts => S (arity ts)
  end.

(** decltype(std::tie(args...)) is std::tuple<const Types&...> *)
Fixpoint tie_types (ts : types) : types :=
  match ts with
  | TNil => TNil
  | TCons _ t ts => TCons const_lvalue_ref t (tie_types ts)
  end.

(** std::tie(args...): the tuple of references to the arguments. *)
Fixpoint std_tie (ts : types) : denotes ts -> denotes (tie_types ts) :=
  match ts return denotes ts -> denotes (tie_types ts) with
  | TNil => fun args => args
  | TCons _ t ts => fun args => (fst args, std_tie ts (snd args))
  end.

(** One position of a tuple type [Tup]: the type of the element,
    [std::get<idx>] at that position, and [simple_get_hash] instantiated at
    the element's type (template argument deduction against [const T&]
    strips the reference of a [const T&] element). *)
Record element (Tup : Type) : Type := {
  elem_type : Type;
  std_get : Tup -> elem_type;
  simple_get_hash : Hasher elem_type
}.

Arguments elem_type {Tup} e.
Arguments std_get {Tup} e.
Arguments simple_get_hash {Tup} e.

(** The same position seen from a larger tuple. *)
Definition shift {Tup Tup' : Type} (g : Tup' -> Tup) (e : element Tup) : element Tup' :=
  {| elem_type := elem_type e;
     std_get := fun t => std_get e (g t);
     simple_get_hash := simple_get_hash e |}.

Section Hash.

(** The number of bits of [std::size_t]. *)
Variable w : positive.

Definition modulus : Z := 2 ^ Z.pos w.

Definition SIZE_MAX : Z := modulus - 1.

(** Conversion of an integer to [std::size_t]. *)
Definition wrap (z : Z) : size_t := z mod modulus.

Definition in_range (z : Z) : Prop := 0 <= z < modulus.

Definition add (a b : size_t) : size_t := wrap (a + b).
Definition sub (a b : size_t) : size_t := wrap (a - b).
Definition shl (a : size_t) (n : Z) : size_t := wrap (Z.shiftl a n).
Definition shr (a : size_t) (n : Z) : size_t := Z.shiftr a n.
Definition xor (a b : size_t) : size_t := Z.lxor a b.

(** ** hash_combine (lines 35-37)

    [return seed ^ (value + 0x9e3779b9 + (seed << 6) + (seed >> 2));] *)
Definition hash_combine (seed value : size_t) : size_t :=
  xor seed (add (add (add value 0x9e3779b9) (shl seed 6)) (shr seed 2)).

(** The reference formula of the specification, computed over the
    unbounded integers and reduced modulo [2^w] once, at the end. *)
Definition reference_combine (s v : Z) : Z :=
  (Z.lxor s (v + 0x9e3779b9 + Z.shiftl s 6 + Z.shiftr s 2)) mod 2 ^ Z.pos w.

(** ** _hash_detail::dispatch_hash (lines 57-71)

    Each overload is present only if its return type is well-formed, and
    returns a [std::size_t]. *)

(** [decltype(std::hash<T>()(o), type_if_not_enum<T, std::size_t>())] *)
Definition dispatch_hash_std {T : Type} (tr : type_traits T) : option (T -> size_t) :=
  match tr with
  | non_enum_type (Some std_hash) _ => Some (fun o => wrap (std_hash o))
  | _ => None
  end.

(** [std::enable_if<std::is_enum<T>::value, std::size_t>::type] *)
Definition dispatch_hash_enum {T : Type} (tr : type_traits T) : option (T -> size_t) :=
  match tr with
  | enum_type R static_cast std_hash_R _ =>
      Some (fun o => wrap (std_hash_R (static_cast o)))
  | _ => None
  end.

(** [decltype(T::hash(o), std::size_t())] *)
Definition dispatch_hash_static {T : Type} (tr : type_traits T) : option (T -> size_t) :=
  match tr with
  | non_enum_type _ (Some static_hash) => Some (fun o => wrap (static_hash o))
  | _ => None
  end.

Definition dispatch_hash {T : Type} (tr : type_traits T) : Hasher T :=
  resolve_overload
    [dispatch_hash_std tr; dispatch_hash_enum tr; dispatch_hash_static tr].

(** ** torch::hash<std::tuple<Types...>> (lines 84-104) *)

Section TupleHash.

Variable Tup : Type.
Variable es : list (element Tup).

Definition nth_element (idx : nat) : result (element Tup) :=
  match nth_error es idx with
  | Some e => Ok e
  | None => CompileError tuple_index_out_of_range
  end.

(** [simple_get_hash(std::get<idx>(t))] *)
Definition element_hash (idx : nat) : Hasher Tup :=
  e <- nth_element idx ;;
  h <- simple_get_hash e ;;
  Ok (fun t => h (std_get e t)).

(** [tuple_hash<idx, Ts...>], with its specialisation [tuple_hash<0, Ts...>] *)
Fixpoint tuple_hash (idx : nat) : Hasher Tup :=
  match idx with
  | O => element_hash O
  | S idx' =>
      h <- element_hash idx ;;
      r <- tuple_hash idx' ;;
      Ok (fun t => hash_combine (h t) (r t))
  end.

(** [tuple_hash<idx, Ts...>] once more, now also listing, in the order of
    the recursion, the indices at which [tuple_hash] is instantiated.  As
    in [tuple_hash], an ill-formed [simple_get_hash(std::get<idx>(t))] ends
    the instantiation: [tuple_hash<idx-1, Ts...>] is not reached. *)
Fixpoint tuple_hash_traced (idx : nat) : list nat * Hasher Tup :=
  match idx with
  | O => ([O], element_hash O)
  | S idx' =>
      match element_hash idx with
      | CompileError e => ([idx], CompileError e)
      | Ok h =>
          let (visited, prefix) := tuple_hash_traced idx' in
          (idx :: visited,
           r <- prefix ;; Ok (fun t => hash_combine (h t) (r t)))
      end
  end.

(** [tuple_hash<sizeof...(Types)-1, Types...>()(t)]; the subtraction is
    done on [std::size_t]. *)
Definition last_index : size_t := sub (Z.of_nat (length es)) 1.

Definition hash_tuple : Hasher Tup := tuple_hash (Z.to_nat last_index).

End TupleHash.

Arguments nth_element {Tup} es idx.
Arguments element_hash {Tup} es idx.
Arguments tuple_hash {Tup} es idx.
Arguments tuple_hash_traced {Tup} es idx.
Arguments last_index {Tup} es.
Arguments hash_tuple {Tup} es.

(** Every element type of the tuple has a hasher. *)
Definition all_resolved {Tup : Type} (es : list (element Tup)) : bool :=
  forallb (fun e => is_ok (simple_get_hash e)) es.

(** ** torch::hash<std::vector<T>> (lines 107-116) *)

(** The range-based for loop, threading [seed]. *)
Fixpoint vector_loop {T : Type} (h : T -> size_t) (v : list T) (seed : size_t) : size_t :=
  match v with
  | [] => seed
  | elem :: rest => vector_loop h rest (hash_combine seed (h elem))
  end.

Definition hash_vector {T : Type} (simple_get_hash : Hasher T) : Hasher (list T) :=
  h <- simple_get_hash ;;
  Ok (fun v => vector_loop h v 0).

(** ** torch::hash<T> (lines 76-81) and the choice of a specialisation *)

Fixpoint torch_hash (t : type) : Hasher (denote t) :=
  match t return Hasher (denote t) with
  | Plain T tr => dispatch_hash tr
  | Tuple ts => hash_tuple (elements ts)
  | Vector t => hash_vector (torch_hash t)
  end
with elements (ts : types) : list (element (denotes ts)) :=
  match ts return list (element (denotes ts)) with
  | TNil => []
  | TCons _ t ts =>
      {| elem_type := denote t; std_get := fst; simple_get_hash := torch_hash t |}
      :: map (shift snd) (elements ts)
  end.

(** The general entry point, [torch::hash<T>()(o)]. *)
Definition hash_of (t : type) (o : denote t) : result size_t :=
  run (torch_hash t) o.

(** ** get_hash (lines 134-137)

    [return torch::hash<decltype(std::tie(args...))>()(std::tie(args...));] *)
Definition get_hash (ts : types) (args : denotes ts) : result size_t :=
  run (torch_hash (Tuple (tie_types ts))) (std_tie ts args).

(** ** Vocabulary of the specification *)

(** Section 4.3, fixed-arity tuple, as worded there: the digest for index
    0 is the scalar hash of the element at index 0; the digest for an index
    [i > 0] is [combine] of the scalar hash of the element at index [i] and
    of the digest computed for the indices [0 .. i-1]. *)
Fixpoint tuple_digest (scalar_hash : nat -> size_t) (i : nat) : size_t :=
  match i with
  | O => scalar_hash O
  | S j => hash_combine (scalar_hash i) (tuple_digest scalar_hash j)
  end.

(** The scalar hashes of the elements of a tuple, by increasing index:
    what [hash_of] gives for each element on its own. *)
Fixpoint scalar_hashes (ts : types) : denotes ts -> list (result size_t) :=
  match ts return denotes ts -> list (result size_t) with
  | TNil => fun _ => []
  | TCons _ t ts => fun x => hash_of t (fst x) :: scalar_hashes ts (snd x)
  end.

(** The number of a tuple's elements is itself a [std::size_t]: every
    tuple type that occurs has at most [SIZE_MAX] elements. *)
Fixpoint arities_fit (t : type) : bool :=
  match t with
  | Plain _ _ => true
  | Tuple ts => (Z.of_nat (arity ts) <=? SIZE_MAX) && arities_fit_all ts
  | Vector t => arities_fit t
  end
with arities_fit_all (ts : types) : bool :=
  match ts with
  | TNil => true
  | TCons _ t ts => arities_fit t && arities_fit_all ts
  end.

(** The types with a hasher: exactly one overload of [dispatch_hash] is
    viable for a plain type, a tuple has at least one element and all its
    element types have a hasher, and so has the element type of a vector. *)
Fixpoint hashable (t : type) : bool :=
  match t with
  | Plain _ tr => is_ok (dispatch_hash tr)
  | Tuple ts => negb (Nat.eqb (arity ts) 0) && hashable_all ts
  | Vector t => hashable t
  end
with hashable_all (ts : types) : bool :=
  match ts with
  | TNil => true
  | TCons _ t ts => hashable t && hashable_all ts
  end.

(** The three conditions that guard the overloads of [dispatch_hash],
    read off the type alone. *)

(** [std::is_enum<T>::value] *)
Definition is_enum {T : Type} (tr : type_traits T) : bool :=
  match tr with
  | enum_type _ _ _ _ => true
  | non_enum_type _ _ => false
  end.

(** [std::hash<T>()(o)] is well-formed. *)
Definition std_hash_usable {T : Type} (tr : type_traits T) : bool :=
  match tr with
  | enum_type _ _ _ (Some _) => true
  | non_enum_type (Some _) _ => true
  | _ => false
  end.

(** [T::hash(o)] is well-formed. *)
Definition static_hash_usable {T : Type} (tr : type_traits T) : bool :=
  match tr with
  | non_enum_type _ (Some _) => true
  | _ => false
  end.

(** How many of the three overloads survive their guards. *)
Definition viable_overloads {T : Type} (tr : type_traits T) : nat :=
  (if std_hash_usable tr && negb (is_enum tr) then 1 else 0)
  + (if is_enum tr then 1 else 0)
  + (if static_hash_usable tr then 1 else 0).

(** Exactly one overload survives for every type handled by the primary
    template; every tuple has at least one element. *)
Fixpoint one_strategy (t : type) : bool :=
  match t with
  | Plain _ tr => Nat.eqb (viable_overloads tr) 1
  | Tuple ts => negb (Nat.eqb (arity ts) 0) && one_strategy_all ts
  | Vector t => one_strategy t
  end
with one_strategy_all (ts : types) : bool :=
  match ts with
  | TNil => true
  | TCons _ t ts => one_strategy t && one_strategy_all ts
  end.

(** A type for which none of the three strategies resolves: not an
    enumeration, no [std::hash<T>], no static [T::hash]. *)
Definition no_strategy {T : Type} (tr : type_traits T) : bool :=
  match tr with
  | non_enum_type None None => true
  | _ => false
  end.

(** Such a type is used, directly or at any depth inside tuples and
    vectors. *)
Fixpoint uses_unhashable (t : type) : bool :=
  match t with
  | Plain _ tr => no_strategy tr
  | Tuple ts => uses_unhashable_any ts
  | Vector t => uses_unhashable t
  end
with uses_unhashable_any (ts : types) : bool :=
  match ts with
  | TNil => false
  | TCons _ t ts => uses_unhashable t || uses_unhashable_any ts
  end.

End Hash.

Arguments nth_element {Tup} es idx.
Arguments element_hash {Tup} es idx.
Arguments all_resolved {Tup} es.
Arguments tuple_hash w {Tup} es idx.
Arguments tuple_hash_traced w {Tup} es idx.
Arguments last_index w {Tup} es.
Arguments hash_tuple w {Tup} es.
Arguments hash_vector w {T} simple_get_hash.
Arguments dispatch_hash w {T} tr.
Arguments vector_loop w {T} h v seed.

(** ** Concrete types for the examples *)

(** [int], with the identity as [std::hash<int>] (as in libstdc++ and
    libc++). *)
Definition int : type := Plain Z (integral_type (fun i => i)).

(** std::tuple<int, int> *)
Definition int_pair : types := TCons by_value int (TCons by_value int TNil).

(** A class that has a [std::hash] specialisation (here hashing its
    value) and also declares a static [hash] (here returning 7). *)
Definition both_hashes : type :=
  Plain Z (non_enum_type (Some (fun o => o)) (Some (fun _ => 7))).

(** A class with neither. *)
Definition unhashable : type := Plain unit (non_enum_type None None).

(** [std::size_t] itself, with the identity as [std::hash<std::size_t>]. *)
Definition size_type : type := Plain Z (integral_type (fun i => i)).

(** * Properties *)

Section Properties.

Variable w : positive.

(** ** std::size_t arithmetic *)

Lemma modulus_pos : 0 < modulus w.
Proof. unfold modulus. apply Z.pow_pos_nonneg; lia. Qed.

Lemma modulus_ge_2 : 2 <= modulus w.
Proof.
  unfold modulus.
  change 2 with (2 ^ 1) at 1.
  apply Z.pow_le_mono_r; lia.
Qed.

Lemma wrap_in_range (z : Z) : in_range w (wrap w z).
Proof. unfold in_range, wrap. apply Z.mod_pos_bound, modulus_pos. Qed.

Lemma wrap_small (z : Z) : in_range w z -> wrap w z = z.
Proof. unfold in_range, wrap. intros H. now apply Z.mod_small. Qed.

Lemma wrap_add_l (a b : Z) : wrap w (wrap w a + b) = wrap w (a + b).
Proof. unfold wrap. apply Zplus_mod_idemp_l. Qed.

Lemma wrap_add_r (a b : Z) : wrap w (a + wrap w b) = wrap w (a + b).
Proof. unfold wrap. apply Zplus_mod_idemp_r. Qed.

Lemma wrap_ones (z : Z) : wrap w z = Z.land z (Z.ones (Z.pos w)).
Proof. unfold wrap, modulus. rewrite Z.land_ones; [reflexivity | lia]. Qed.

Lemma land_lxor_distr (a b c : Z) :
  Z.land (Z.lxor a b) c = Z.lxor (Z.land a c) (Z.land b c).
Proof.
  apply Z.bits_inj'. intros n _.
  rewrite Z.land_spec, !Z.lxor_spec, !Z.land_spec.
  now destruct (Z.testbit a n), (Z.testbit b n), (Z.testbit c n).
Qed.

Lemma xor_wrap (s x : Z) :
  in_range w s -> xor s (wrap w x) = wrap w (Z.lxor s x).
Proof.
  intros Hs. unfold xor.
  rewrite <- (wrap_small s Hs) at 1.
  rewrite !wrap_ones.
  symmetry. apply land_lxor_distr.
Qed.

Lemma hash_combine_unfold (seed value : Z) :
  hash_combine w seed value =
  Z.lxor seed (wrap w (value + 0x9e3779b9 + Z.shiftl seed 6 + Z.shiftr seed 2)).
Proof.
  unfold hash_combine, xor, add, shl, shr.
  f_equal.
  rewrite wrap_add_l, <- Z.add_assoc, wrap_add_l.
  replace (value + 0x9e3779b9 + (wrap w (Z.shiftl seed 6) + Z.shiftr seed 2))
    with (wrap w (Z.shiftl seed 6) + (value + 0x9e3779b9 + Z.shiftr seed 2)) by ring.
  rewrite wrap_add_l. f_equal. ring.
Qed.

Lemma hash_combine_in_range (seed value : Z) :
  in_range w seed -> in_range w (hash_combine w seed value).
Proof.
  intros Hs. rewrite hash_combine_unfold.
  fold (xor seed (wrap w (value + 0x9e3779b9 + Z.shiftl seed 6 + Z.shiftr seed 2))).
  rewrite xor_wrap by assumption.
  apply wrap_in_range.
Qed.

(** C1.  For all seeds [s] and values [v] of type [std::size_t],
    [hash_combine s v] is [s XOR (v + 0x9e3779b9 + (s << 6) + (s >> 2))]
    taken modulo [2^w]; being a total function into [std::size_t], it is
    deterministic and cannot fail. *)
Theorem hash_combine_reference (s v : Z) :
  in_range w s -> in_range w v ->
  hash_combine w s v = reference_combine w s v
  /\ in_range w (hash_combine w s v).
Proof.
  intros Hs _. split.
  - rewrite hash_combine_unfold. unfold reference_combine.
    fold (modulus w).
    fold (wrap w (Z.lxor s (v + 0x9e3779b9 + Z.shiftl s 6 + Z.shiftr s 2))).
    apply (xor_wrap s _ Hs).
  - now apply hash_combine_in_range.
Qed.

(** ** Resolved hashers and their application *)

Lemma is_ok_run {T : Type} (h : Hasher T) (o : T) : is_ok (run h o) = is_ok h.
Proof. now destruct h. Qed.

Lemma is_ok_false_error {A : Type} (c : result A) :
  is_ok c = false -> exists e, c = CompileError e.
Proof. destruct c as [a | e]; [discriminate | now exists e]. Qed.

Lemma run_lift2 {T : Type} (a b : Hasher T) (F : size_t -> size_t -> size_t) (o : T) :
  run (h <- a ;; r <- b ;; Ok (fun t => F (h t) (r t))) o =
  (h <- run a o ;; r <- run b o ;; Ok (F h r)).
Proof. now destruct a, b. Qed.

(** ** Tuples: one table of elements *)

Section TupleFacts.

Context {Tup : Type}.
Variable es : list (element Tup).

Lemma run_tuple_hash_S (i : nat) (t : Tup) :
  run (tuple_hash w es (S i)) t =
  (h <- run (element_hash es (S i)) t ;;
   r <- run (tuple_hash w es i) t ;;
   Ok (hash_combine w h r)).
Proof. cbn [tuple_hash]. apply run_lift2. Qed.

Lemma is_ok_element_hash (i : nat) :
  is_ok (element_hash es i) =
  match nth_error es i with
  | Some e => is_ok (simple_get_hash e)
  | None => false
  end.
Proof.
  unfold element_hash, nth_element.
  destruct (nth_error es i) as [e |]; cbn; [| reflexivity].
  now destruct (simple_get_hash e).
Qed.

Lemma tuple_hash_ok_iff (idx : nat) :
  is_ok (tuple_hash w es idx) = true <->
  forall i, (i <= idx)%nat -> is_ok (element_hash es i) = true.
Proof.
  induction idx as [| idx IH]; cbn [tuple_hash].
  - split.
    + intros H i Hi. now replace i with O by lia.
    + intros H. apply H. lia.
  - destruct (element_hash es (S idx)) as [h |] eqn:Eh; cbn.
    + destruct (tuple_hash w es idx) as [r |] eqn:Er; cbn.
      * split; [| reflexivity].
        intros _ i Hi.
        destruct (Nat.eq_dec i (S idx)) as [-> | Hne].
        -- now rewrite Eh.
        -- apply IH; [reflexivity | lia].
      * split; [discriminate |].
        intros H. apply IH. intros i Hi. apply H. lia.
    + split; [discriminate |].
      intros H. specialize (H (S idx) (Nat.le_refl _)).
      now rewrite Eh in H.
Qed.

Lemma all_resolved_iff :
  all_resolved es = true <->
  forall i, (i < length es)%nat -> is_ok (element_hash es i) = true.
Proof.
  unfold all_resolved. rewrite forallb_forall. split.
  - intros H i Hi. rewrite is_ok_element_hash.
    destruct (nth_error es i) as [e |] eqn:E.
    + apply H. eapply nth_error_In, E.
    + apply nth_error_None in E. lia.
  - intros H e He.
    destruct (In_nth_error _ _ He) as [i Hi].
    assert (Hlt : (i < length es)%nat).
    { apply nth_error_Some. now rewrite Hi. }
    specialize (H i Hlt). rewrite is_ok_element_hash, Hi in H. exact H.
Qed.

(** For a non-empty tuple the subtraction does not wrap. *)
Lemma last_index_nonempty :
  (1 <= length es)%nat -> Z.of_nat (length es) <= modulus w ->
  Z.to_nat (last_index w es) = Nat.pred (length es).
Proof.
  intros H1 H2. unfold last_index, sub.
  rewrite wrap_small by (unfold in_range; lia).
  lia.
Qed.

Lemma hash_tuple_ok :
  (1 <= length es)%nat -> Z.of_nat (length es) <= SIZE_MAX w ->
  is_ok (hash_tuple w es) = all_resolved es.
Proof.
  intros H1 H2. apply eq_true_iff_eq.
  unfold hash_tuple.
  rewrite last_index_nonempty by (unfold SIZE_MAX in H2; lia || assumption).
  rewrite tuple_hash_ok_iff, all_resolved_iff.
  split; intros H i Hi; apply H; lia.
Qed.

End TupleFacts.

(** For the empty tuple the subtraction wraps to [SIZE_MAX]. *)
Lemma last_index_empty (Tup : Type) :
  last_index w (@nil (element Tup)) = SIZE_MAX w.
Proof.
  unfold last_index, sub, SIZE_MAX. cbn [length Z.of_nat].
  pose proof modulus_pos.
  replace (0 - 1) with (-1) by reflexivity.
  unfold wrap.
  replace (-1) with (modulus w - 1 + (-1) * modulus w) by ring.
  rewrite Z.mod_add by lia.
  apply Z.mod_small. lia.
Qed.

Lemma tuple_hash_empty (Tup : Type) (idx : nat) :
  tuple_hash w (@nil (element Tup)) idx = CompileError tuple_index_out_of_range.
Proof.
  destruct idx as [| idx]; cbn [tuple_hash]; unfold element_hash, nth_element.
  - reflexivity.
  - now rewrite (proj2 (nth_error_None (@nil (element Tup)) (S idx))) by (cbn; lia).
Qed.

Lemma hash_tuple_empty (Tup : Type) :
  hash_tuple w (@nil (element Tup)) = CompileError tuple_index_out_of_range.
Proof. apply tuple_hash_empty. Qed.

(** ** Tuples: the element table of a tuple type *)

Lemma length_elements (ts : types) : length (elements w ts) = arity ts.
Proof.
  induction ts as [| q t ts IH]; cbn [elements arity length]; [reflexivity |].
  now rewrite length_map, IH.
Qed.

Lemma run_element_hash_shift {Tup Tup' : Type} (g : Tup' -> Tup)
      (es : list (element Tup)) (i : nat) (t : Tup') :
  run (element_hash (map (shift g) es) i) t = run (element_hash es i) (g t).
Proof.
  unfold element_hash, nth_element. rewrite nth_error_map.
  destruct (nth_error es i) as [e |]; cbn; [| reflexivity].
  now destruct (simple_get_hash e).
Qed.

Lemma run_element_hash_head (q : ref_qualifier) (t : type) (ts : types)
      (x : denotes (TCons q t ts)) :
  run (element_hash (elements w (TCons q t ts)) 0) x = hash_of w t (fst x).
Proof.
  unfold hash_of, element_hash, nth_element. cbn.
  now destruct (torch_hash w t).
Qed.

Lemma run_element_hash_tail (q : ref_qualifier) (t : type) (ts : types)
      (i : nat) (x : denotes (TCons q t ts)) :
  run (element_hash (elements w (TCons q t ts)) (S i)) x =
  run (element_hash (elements w ts) i) (snd x).
Proof.
  exact (run_element_hash_shift (@snd (denote t) (denotes ts)) (elements w ts) i x).
Qed.

(** [simple_get_hash(std::get<i>(t))] is the scalar hash of the element at
    index [i]. *)
Lemma run_element_hash (ts : types) (i : nat) (x : denotes ts) :
  run (element_hash (elements w ts) i) x =
  nth i (scalar_hashes w ts x) (CompileError tuple_index_out_of_range).
Proof.
  revert i x. induction ts as [| q t ts IH]; intros i x.
  - now destruct i.
  - destruct i as [| i].
    + apply run_element_hash_head.
    + rewrite run_element_hash_tail. cbn [scalar_hashes nth]. apply IH.
Qed.

Lemma length_scalar_hashes (ts : types) (x : denotes ts) :
  length (scalar_hashes w ts x) = arity ts.
Proof.
  revert x. induction ts as [| q t ts IH]; intros x; cbn; [reflexivity |].
  now rewrite IH.
Qed.

(** What a tuple hasher computes depends on the tuple only through the
    scalar hashes of its elements. *)
Lemma run_tuple_hash_scalar (ts ts' : types) (x : denotes ts) (x' : denotes ts') :
  scalar_hashes w ts x = scalar_hashes w ts' x' ->
  forall idx,
    run (tuple_hash w (elements w ts) idx) x =
    run (tuple_hash w (elements w ts') idx) x'.
Proof.
  intros E. induction idx as [| idx IH].
  - cbn [tuple_hash]. now rewrite !run_element_hash, E.
  - now rewrite !run_tuple_hash_S, !run_element_hash, E, IH.
Qed.

(** With every element hashed to [ds], the recursion of [tuple_hash]
    computes the digest that the specification describes. *)
Lemma run_tuple_hash_digest (ts : types) (x : denotes ts) (ds : list size_t) :
  scalar_hashes w ts x = map Ok ds ->
  forall idx, (idx < length ds)%nat ->
    run (tuple_hash w (elements w ts) idx) x =
    Ok (tuple_digest w (fun i => nth i ds 0) idx).
Proof.
  intros E.
  assert (Hnth : forall i, (i < length ds)%nat ->
            run (element_hash (elements w ts) i) x = Ok (nth i ds 0)).
  { intros i Hi. rewrite run_element_hash, E.
    rewrite (nth_indep _ _ (Ok 0)) by now rewrite length_map.
    apply (map_nth Ok). }
  induction idx as [| idx IH]; intros Hidx.
  - cbn [tuple_hash tuple_digest]. now apply Hnth.
  - rewrite run_tuple_hash_S, Hnth by assumption.
    rewrite IH by lia. reflexivity.
Qed.

(** ** Which types have a hasher *)

Lemma is_ok_hash_vector {T : Type} (h : Hasher T) :
  is_ok (hash_vector w h) = is_ok h.
Proof. now destruct h. Qed.

Lemma all_resolved_shift {Tup Tup' : Type} (g : Tup' -> Tup)
      (es : list (element Tup)) :
  all_resolved (map (shift g) es) = all_resolved es.
Proof.
  unfold all_resolved. induction es as [| e es IH]; cbn; [reflexivity |].
  now rewrite IH.
Qed.

Lemma all_resolved_cons (q : ref_qualifier) (t : type) (ts : types) :
  all_resolved (elements w (TCons q t ts)) =
  is_ok (torch_hash w t) && all_resolved (elements w ts).
Proof.
  rewrite <- (all_resolved_shift (@snd (denote t) (denotes ts)) (elements w ts)).
  reflexivity.
Qed.

Lemma torch_hash_resolves_mut :
  (forall t, arities_fit w t = true -> is_ok (torch_hash w t) = hashable w t)
  /\ (forall ts, arities_fit_all w ts = true ->
        all_resolved (elements w ts) = hashable_all w ts).
Proof.
  apply type_types_ind.
  - reflexivity.
  - intros ts IH Hfit. cbn [arities_fit] in Hfit.
    apply andb_true_iff in Hfit as [Hn Hall].
    apply Z.leb_le in Hn.
    change (is_ok (torch_hash w (Tuple ts)))
      with (is_ok (@hash_tuple w (denotes ts) (elements w ts))).
    change (hashable w (Tuple ts))
      with (negb (Nat.eqb (arity ts) 0) && hashable_all w ts).
    destruct (arity ts) as [| n] eqn:En.
    + destruct ts; [| discriminate].
      change (elements w TNil) with (@nil (element unit)).
      change (denotes TNil) with unit.
      now rewrite hash_tuple_empty.
    + rewrite hash_tuple_ok.
      * cbn [Nat.eqb negb andb]. exact (IH Hall).
      * rewrite length_elements. lia.
      * now rewrite length_elements, En.
  - intros t IH Hfit.
    change (hashable w (Vector t)) with (hashable w t).
    rewrite <- (IH Hfit).
    exact (is_ok_hash_vector (torch_hash w t)).
  - reflexivity.
  - intros q t IHt ts IHts Hfit. cbn [arities_fit_all] in Hfit.
    apply andb_true_iff in Hfit as [Ht Hts].
    rewrite all_resolved_cons. cbn [hashable_all].
    now rewrite IHt, IHts.
Qed.

(** A type has a hasher exactly when it is [hashable]. *)
Lemma torch_hash_resolves (t : type) :
  arities_fit w t = true -> is_ok (torch_hash w t) = hashable w t.
Proof. apply torch_hash_resolves_mut. Qed.

Lemma uses_unhashable_not_hashable_mut :
  (forall t, uses_unhashable t = true -> hashable w t = false)
  /\ (forall ts, uses_unhashable_any ts = true -> hashable_all w ts = false).
Proof.
  apply type_types_ind.
  - intros T tr H. cbn in *.
    destruct tr as [R c hR hT | [hs |] [hc |]]; cbn in H; try discriminate.
    reflexivity.
  - intros ts IH H. cbn in *. rewrite IH by assumption. apply andb_false_r.
  - intros t IH H. cbn in *. now apply IH.
  - discriminate.
  - intros q t IHt ts IHts H. cbn in *.
    apply orb_true_iff in H as [H | H].
    + now rewrite IHt.
    + rewrite IHts by assumption. apply andb_false_r.
Qed.

Lemma uses_unhashable_not_hashable (t : type) :
  uses_unhashable t = true -> hashable w t = false.
Proof. apply uses_unhashable_not_hashable_mut. Qed.

(** ** get_hash and the tuple of references *)

Lemma arity_tie_types (ts : types) : arity (tie_types ts) = arity ts.
Proof. induction ts as [| q t ts IH]; cbn; [reflexivity | now rewrite IH]. Qed.

(** Hashing goes through a reference to the value referred to. *)
Lemma scalar_hashes_std_tie (ts : types) (args : denotes ts) :
  scalar_hashes w (tie_types ts) (std_tie ts args) = scalar_hashes w ts args.
Proof.
  revert args. induction ts as [| q t ts IH]; intros args; cbn; [reflexivity |].
  now rewrite IH.
Qed.

Lemma get_hash_hash_of (ts : types) (args : denotes ts) :
  get_hash w ts args = hash_of w (Tuple ts) args.
Proof.
  unfold get_hash, hash_of.
  change (torch_hash w (Tuple (tie_types ts)))
    with (tuple_hash w (elements w (tie_types ts))
            (Z.to_nat (last_index w (elements w (tie_types ts))))).
  change (torch_hash w (Tuple ts))
    with (tuple_hash w (elements w ts) (Z.to_nat (last_index w (elements w ts)))).
  unfold last_index.
  rewrite !length_elements, arity_tie_types.
  apply run_tuple_hash_scalar, scalar_hashes_std_tie.
Qed.

(** ** Vectors *)

Lemma vector_loop_fold_left {T : Type} (h : T -> size_t) (v : list T) (seed : size_t) :
  vector_loop w h v seed =
  fold_left (fun seed elem => hash_combine w seed (h elem)) v seed.
Proof.
  revert seed. induction v as [| elem rest IH]; intros seed; cbn; [reflexivity |].
  apply IH.
Qed.

Lemma hash_combine_0 (value : Z) :
  hash_combine w 0 value = wrap w (value + 0x9e3779b9).
Proof.
  rewrite hash_combine_unfold.
  rewrite Z.shiftl_0_l, Z.shiftr_0_l, !Z.add_0_r.
  apply Z.lxor_0_l.
Qed.

(** ** Every digest is a std::size_t *)

Lemma dispatch_hash_in_range {T : Type} (tr : type_traits T) (o : T) (d : size_t) :
  run (dispatch_hash w tr) o = Ok d -> in_range w d.
Proof.
  destruct tr as [R c hR hT | [hs |] [hc |]]; cbn; intros E;
    inversion E; apply wrap_in_range.
Qed.

Lemma vector_loop_in_range {T : Type} (h : T -> size_t) (v : list T) (seed : size_t) :
  in_range w seed -> in_range w (vector_loop w h v seed).
Proof.
  revert seed. induction v as [| elem rest IH]; intros seed Hs; cbn; [exact Hs |].
  now apply IH, hash_combine_in_range.
Qed.

Lemma tuple_hash_in_range (ts : types) (x : denotes ts) :
  Forall (fun r => forall d, r = Ok d -> in_range w d) (scalar_hashes w ts x) ->
  forall idx d, run (tuple_hash w (elements w ts) idx) x = Ok d -> in_range w d.
Proof.
  intros Hall.
  assert (Hnth : forall i d,
            run (element_hash (elements w ts) i) x = Ok d -> in_range w d).
  { intros i d. rewrite run_element_hash. intros E.
    destruct (Nat.lt_ge_cases i (length (scalar_hashes w ts x))) as [Hi | Hi].
    - rewrite Forall_forall in Hall. apply (Hall _ (nth_In _ _ Hi) d E).
    - rewrite nth_overflow in E by assumption. discriminate. }
  intros [| idx] d.
  - apply Hnth.
  - rewrite run_tuple_hash_S.
    destruct (run (element_hash (elements w ts) (S idx)) x) as [h |] eqn:Eh;
      [| discriminate].
    destruct (run (tuple_hash w (elements w ts) idx) x) as [r |]; [| discriminate].
    cbn. intros E. inversion E. apply hash_combine_in_range. now apply (Hnth (S idx)).
Qed.

Lemma hash_of_in_range_mut :
  (forall t (o : denote t) d, hash_of w t o = Ok d -> in_range w d)
  /\ (forall ts (x : denotes ts),
        Forall (fun r => forall d, r = Ok d -> in_range w d) (scalar_hashes w ts x)).
Proof.
  apply type_types_ind.
  - intros T tr o d. apply dispatch_hash_in_range.
  - intros ts IH x d. unfold hash_of.
    change (torch_hash w (Tuple ts))
      with (tuple_hash w (elements w ts) (Z.to_nat (last_index w (elements w ts)))).
    apply tuple_hash_in_range, IH.
  - intros t IH v d. unfold hash_of.
    change (torch_hash w (Vector t)) with (hash_vector w (torch_hash w t)).
    destruct (torch_hash w t) as [h |]; [| discriminate].
    cbn. intros E. inversion E. apply vector_loop_in_range.
    pose proof modulus_pos. unfold in_range. lia.
  - intros x. constructor.
  - intros q t IHt ts IHts x. cbn [scalar_hashes]. constructor.
    + apply IHt.
    + apply IHts.
Qed.

(** Whatever is hashed, the digest lies in [0 .. 2^w - 1]. *)
Lemma hash_of_in_range (t : type) (o : denote t) (d : size_t) :
  hash_of w t o = Ok d -> in_range w d.
Proof. apply hash_of_in_range_mut. Qed.

(** ** The tuple specialisation *)

Lemma hash_of_tuple (ts : types) (x : denotes ts) :
  (1 <= arity ts)%nat -> Z.of_nat (arity ts) <= modulus w ->
  hash_of w (Tuple ts) x = run (tuple_hash w (elements w ts) (Nat.pred (arity ts))) x.
Proof.
  intros H1 H2. unfold hash_of.
  change (torch_hash w (Tuple ts))
    with (tuple_hash w (elements w ts) (Z.to_nat (last_index w (elements w ts)))).
  rewrite last_index_nonempty by now rewrite length_elements.
  now rewrite length_elements.
Qed.

Lemma hash_of_pair (qa qb : ref_qualifier) (A B : type) (a : denote A) (b : denote B) :
  hash_of w (Tuple (TCons qa A (TCons qb B TNil))) (a, (b, tt)) =
  (hb <- hash_of w B b ;; ha <- hash_of w A a ;; Ok (hash_combine w hb ha)).
Proof.
  rewrite hash_of_tuple.
  - cbn [arity Nat.pred]. rewrite run_tuple_hash_S.
    cbn [tuple_hash]. rewrite !run_element_hash. reflexivity.
  - cbn; lia.
  - pose proof modulus_ge_2. cbn [arity]. lia.
Qed.

(** C2.  Take a tuple of arity [n >= 1] whose elements have the scalar
    hashes [ds].  The digest that [tuple_hash<0>] computes is the scalar
    hash of element 0; the digest that [tuple_hash<i>] computes for
    [0 < i < n] is [hash_combine] of the scalar hash of element [i] and of
    the digest of [tuple_hash<i-1>]; the digest of the tuple is the one for
    index [n-1].  In particular the digest of a pair [(a, b)], such as
    [(1, 2)], is [hash_combine (scalar hash of b) (scalar hash of a)]. *)
Theorem tuple_hash_follows_recursion (ts : types) (x : denotes ts) (ds : list size_t) :
  scalar_hashes w ts x = map Ok ds ->
  (1 <= arity ts)%nat ->
  Z.of_nat (arity ts) <= SIZE_MAX w ->
  let scalar_hash := fun i => nth i ds 0 in
  run (tuple_hash w (elements w ts) 0) x = Ok (scalar_hash O)
  /\ (forall i, (S i < arity ts)%nat ->
        exists prefix,
          run (tuple_hash w (elements w ts) i) x = Ok prefix
          /\ run (tuple_hash w (elements w ts) (S i)) x =
             Ok (hash_combine w (scalar_hash (S i)) prefix))
  /\ hash_of w (Tuple ts) x = Ok (tuple_digest w scalar_hash (arity ts - 1))
  /\ (forall (A B : type) (a : denote A) (b : denote B),
         hash_of w (Tuple (TCons by_value A (TCons by_value B TNil))) (a, (b, tt)) =
         (hb <- hash_of w B b ;; ha <- hash_of w A a ;; Ok (hash_combine w hb ha))).
Proof.
  intros E H1 H2 scalar_hash.
  assert (Hlen : length ds = arity ts).
  { rewrite <- (length_scalar_hashes ts x), E. now rewrite length_map. }
  pose proof (run_tuple_hash_digest ts x ds E) as Hdigest.
  fold scalar_hash in Hdigest.
  repeat split.
  - apply (Hdigest O). lia.
  - intros i Hi. exists (tuple_digest w scalar_hash i). split.
    + apply Hdigest. lia.
    + apply (Hdigest (S i)). lia.
  - rewrite hash_of_tuple by (unfold SIZE_MAX in H2; lia || assumption).
    rewrite Hdigest by lia.
    now replace (Nat.pred (arity ts)) with (arity ts - 1)%nat by lia.
  - intros A B a b. apply hash_of_pair.
Qed.

(** C3.  For a vector whose element type has the hasher [h], the digest is
    the left fold of [seed := hash_combine seed (h elem)] over the elements
    in iteration order, from the seed 0; the empty vector has digest 0. *)
Theorem hash_vector_is_fold (t : type) (h : denote t -> size_t) :
  torch_hash w t = Ok h ->
  (forall v : list (denote t),
      hash_of w (Vector t) v =
      Ok (fold_left (fun seed elem => hash_combine w seed (h elem)) v 0))
  /\ hash_of w (Vector t) [] = Ok 0.
Proof.
  intros E.
  assert (H : forall v : list (denote t),
             hash_of w (Vector t) v = Ok (vector_loop w h v 0)).
  { intros v. unfold hash_of.
    change (torch_hash w (Vector t)) with (hash_vector w (torch_hash w t)).
    now rewrite E. }
  split.
  - intros v. now rewrite H, vector_loop_fold_left.
  - apply H.
Qed.

(** ** The dispatch *)

(** C4, as amended.  For a type that is not an enumeration, has no usable
    [std::hash<T>] and declares a static [T::hash], [hash_of] returns what
    [T::hash] returns (converted to [std::size_t]). *)
Theorem static_hash_when_sole_strategy (T : Type) (static_hash : T -> Z) (o : T) :
  hash_of w (Plain T (non_enum_type None (Some static_hash))) o =
  Ok (wrap w (static_hash o)).
Proof. reflexivity. Qed.

(** C5.  Hashing a value of an enumeration is hashing its underlying
    integer, which [std::hash] of the underlying type does. *)
Theorem enum_hash_is_underlying_hash (T R : Type) (static_cast : T -> R)
        (std_hash_R : R -> Z) (std_hash_T : option (T -> Z)) (e : T) :
  hash_of w (Plain T (enum_type R static_cast std_hash_R std_hash_T)) e =
  hash_of w (Plain R (integral_type std_hash_R)) (static_cast e)
  /\ hash_of w (Plain R (integral_type std_hash_R)) (static_cast e) =
     Ok (wrap w (std_hash_R (static_cast e))).
Proof. split; reflexivity. Qed.

(** C6.  [get_hash(args...)] is the digest of the tuple of its arguments,
    taken in argument order, for every number of arguments. *)
Theorem get_hash_is_tuple_hash (ts : types) (args : denotes ts) :
  get_hash w ts args = hash_of w (Tuple ts) args.
Proof. apply get_hash_hash_of. Qed.

(** C8.  A type for which none of the three strategies resolves has no
    hasher, and neither has any tuple or vector type built from it, at any
    depth: instantiating [torch::hash] at such a type is rejected, so that
    [hash_of] and [get_hash] yield no digest for any value (not even for an
    empty vector). *)
Theorem unhashable_type_is_rejected (t : type) :
  arities_fit w t = true ->
  uses_unhashable t = true ->
  (exists e, torch_hash w t = CompileError e)
  /\ (forall (o : denote t) (d : size_t), hash_of w t o <> Ok d)
  /\ (forall ts (args : denotes ts),
         t = Tuple ts -> exists e, get_hash w ts args = CompileError e).
Proof.
  intros Hfit Huses.
  assert (E : exists e, torch_hash w t = CompileError e).
  { apply is_ok_false_error.
    rewrite torch_hash_resolves by assumption.
    now apply uses_unhashable_not_hashable. }
  split; [exact E |].
  destruct E as [e E]. split.
  - intros o d. unfold hash_of. rewrite E. discriminate.
  - intros ts args ->. exists e.
    rewrite get_hash_hash_of. unfold hash_of. now rewrite E.
Qed.

Lemma tuple_hash_traced_snd {Tup : Type} (es : list (element Tup)) (idx : nat) :
  snd (tuple_hash_traced w es idx) = tuple_hash w es idx.
Proof.
  induction idx as [| idx IH]; cbn [tuple_hash_traced tuple_hash]; [reflexivity |].
  destruct (element_hash es (S idx)) as [h | e]; [| reflexivity].
  destruct (tuple_hash_traced w es idx) as [visited prefix].
  cbn [snd] in *. now rewrite IH.
Qed.

Lemma tuple_hash_traced_descends {Tup : Type} (es : list (element Tup)) (idx : nat) :
  (forall i, (i <= idx)%nat -> is_ok (element_hash es i) = true) ->
  fst (tuple_hash_traced w es idx) = rev (seq 0 (S idx)).
Proof.
  induction idx as [| idx IH]; intros Hok; [reflexivity |].
  rewrite (seq_S (S idx)), rev_app_distr. cbn [rev app Nat.add].
  cbn [tuple_hash_traced].
  pose proof (Hok (S idx) (Nat.le_refl _)) as Hlast.
  destruct (element_hash es (S idx)) as [h | e]; [| discriminate].
  rewrite <- IH by (intros i Hi; apply Hok; lia).
  now destruct (tuple_hash_traced w es idx).
Qed.

Lemma tuple_hash_traced_empty (Tup : Type) (idx : nat) :
  fst (tuple_hash_traced w (@nil (element Tup)) (S idx)) = [S idx].
Proof. reflexivity. Qed.

Lemma torch_hash_tuple_start (ts : types) :
  (1 <= arity ts)%nat -> Z.of_nat (arity ts) <= SIZE_MAX w ->
  Z.to_nat (last_index w (elements w ts)) = Nat.pred (arity ts).
Proof.
  intros H1 H2.
  rewrite last_index_nonempty; rewrite length_elements; trivial.
  unfold SIZE_MAX in H2. lia.
Qed.

(** C9.  For a tuple with [n >= 1] elements, [torch::hash] is
    [tuple_hash] at the start index [sizeof...(Types) - 1 = n - 1]; it has
    a hasher exactly when every element type has one, and then the
    recursion instantiates [tuple_hash] at the indices [n-1, n-2, ..., 0],
    strictly decreasing down to the base case, and yields a hasher.  For
    the empty tuple the start index wraps around to [SIZE_MAX], which is not
    0; the recursion stops at that very index, [std::get] being out of
    range, and never reaches the base case; no index of an empty tuple can
    be hashed, so the empty tuple has no hasher, and neither has [get_hash]
    called without arguments. *)
Theorem tuple_hash_domain :
  (forall ts,
      (1 <= arity ts)%nat ->
      Z.of_nat (arity ts) <= SIZE_MAX w ->
      Z.to_nat (last_index w (elements w ts)) = Nat.pred (arity ts)
      /\ torch_hash w (Tuple ts) = tuple_hash w (elements w ts) (Nat.pred (arity ts))
      /\ tuple_hash w (elements w ts) (Nat.pred (arity ts)) =
         snd (tuple_hash_traced w (elements w ts) (Nat.pred (arity ts)))
      /\ is_ok (torch_hash w (Tuple ts)) = all_resolved (elements w ts)
      /\ (all_resolved (elements w ts) = true ->
            fst (tuple_hash_traced w (elements w ts) (Nat.pred (arity ts))) =
            rev (seq 0 (arity ts))
            /\ exists f, torch_hash w (Tuple ts) = Ok f))
  /\ last_index w (elements w TNil) = SIZE_MAX w
  /\ 0 < SIZE_MAX w
  /\ torch_hash w (Tuple TNil) =
     snd (tuple_hash_traced w (elements w TNil) (Z.to_nat (SIZE_MAX w)))
  /\ fst (tuple_hash_traced w (elements w TNil) (Z.to_nat (SIZE_MAX w))) =
     [Z.to_nat (SIZE_MAX w)]
  /\ ~ In O (fst (tuple_hash_traced w (elements w TNil) (Z.to_nat (SIZE_MAX w))))
  /\ (forall idx,
         tuple_hash w (elements w TNil) idx = CompileError tuple_index_out_of_range)
  /\ torch_hash w (Tuple TNil) = CompileError tuple_index_out_of_range
  /\ get_hash w TNil tt = CompileError tuple_index_out_of_range.
Proof.
  assert (Hmax : 0 < SIZE_MAX w).
  { pose proof modulus_ge_2. unfold SIZE_MAX. lia. }
  assert (Hstart : exists k, Z.to_nat (SIZE_MAX w) = S k).
  { exists (Nat.pred (Z.to_nat (SIZE_MAX w))). lia. }
  split; [| repeat split].
  - intros ts H1 H2.
    pose proof (torch_hash_tuple_start ts H1 H2) as Hidx.
    assert (Hhash : torch_hash w (Tuple ts) =
                    tuple_hash w (elements w ts) (Nat.pred (arity ts))).
    { change (torch_hash w (Tuple ts))
        with (tuple_hash w (elements w ts) (Z.to_nat (last_index w (elements w ts)))).
      now rewrite Hidx. }
    assert (Hok : is_ok (torch_hash w (Tuple ts)) = all_resolved (elements w ts)).
    { change (is_ok (torch_hash w (Tuple ts)))
        with (is_ok (@hash_tuple w (denotes ts) (elements w ts))).
      apply hash_tuple_ok; now rewrite length_elements. }
    split; [exact Hidx |]. split; [exact Hhash |].
    split; [symmetry; apply tuple_hash_traced_snd |].
    split; [exact Hok |].
    intros Hall. split.
    + replace (arity ts) with (S (Nat.pred (arity ts))) at 2 by lia.
      apply tuple_hash_traced_descends.
      intros i Hi. apply (proj1 (all_resolved_iff (elements w ts)) Hall).
      rewrite length_elements. lia.
    + rewrite Hall in Hok.
      destruct (torch_hash w (Tuple ts)) as [f | e]; [now exists f | discriminate].
  - apply last_index_empty.
  - exact Hmax.
  - rewrite tuple_hash_traced_snd.
    change (torch_hash w (Tuple TNil))
      with (tuple_hash w (elements w TNil) (Z.to_nat (last_index w (elements w TNil)))).
    do 2 f_equal. exact (last_index_empty unit).
  - destruct Hstart as [k ->]. apply tuple_hash_traced_empty.
  - destruct Hstart as [k ->]. rewrite tuple_hash_traced_empty.
    cbn. intros [H | []]. discriminate.
  - intros idx. apply tuple_hash_empty.
  - apply (hash_tuple_empty unit).
  - rewrite get_hash_hash_of. unfold hash_of.
    change (torch_hash w (Tuple TNil)) with (hash_tuple w (@nil (element unit))).
    now rewrite hash_tuple_empty.
Qed.

(** C10.  The digest of the one-element tuple [(x)], and so of
    [get_hash(x)], is the scalar hash of [x] itself, no [hash_combine]
    being applied; the digest of the one-element vector [[x]] is
    [hash_combine 0 (scalar hash of x)], and [hash_combine 0 d] is
    [d + 0x9e3779b9] modulo [2^w]. *)
Theorem singleton_tuple_and_vector (q : ref_qualifier) (t : type) (x : denote t) :
  hash_of w (Tuple (TCons q t TNil)) (x, tt) = hash_of w t x
  /\ get_hash w (TCons q t TNil) (x, tt) = hash_of w t x
  /\ hash_of w (Vector t) [x] = (d <- hash_of w t x ;; Ok (hash_combine w 0 d))
  /\ (forall d, hash_combine w 0 d = wrap w (d + 0x9e3779b9)).
Proof.
  assert (H : hash_of w (Tuple (TCons q t TNil)) (x, tt) = hash_of w t x).
  { rewrite hash_of_tuple.
    - cbn [arity Nat.pred tuple_hash]. apply run_element_hash_head.
    - cbn; lia.
    - pose proof modulus_ge_2. cbn [arity]. lia. }
  repeat split.
  - exact H.
  - now rewrite get_hash_hash_of.
  - unfold hash_of.
    change (torch_hash w (Vector t)) with (hash_vector w (torch_hash w t)).
    now destruct (torch_hash w t).
  - apply hash_combine_0.
Qed.

End Properties.

(** * Instances at a 64-bit std::size_t *)

Lemma hash_combine_reference_witness :
  in_range 64 1 /\ in_range 64 2
  /\ hash_combine 64 1 2 = reference_combine 64 1 2
  /\ in_range 64 (hash_combine 64 1 2).
Proof.
  assert (H1 : in_range 64 1)
    by (unfold in_range; change (modulus 64) with 18446744073709551616; lia).
  assert (H2 : in_range 64 2)
    by (unfold in_range; change (modulus 64) with 18446744073709551616; lia).
  split; [exact H1 |]. split; [exact H2 |].
  exact (hash_combine_reference 64 1 2 H1 H2).
Defined.

Lemma tuple_hash_follows_recursion_witness :
  scalar_hashes 64 int_pair (1, (2, tt)) = map Ok [1; 2]
  /\ hash_of 64 (Tuple int_pair) (1, (2, tt)) = Ok 2654435896
  /\ hash_of 64 (Tuple int_pair) (1, (2, tt)) =
     (h2 <- hash_of 64 int 2 ;; h1 <- hash_of 64 int 1 ;; Ok (hash_combine 64 h2 h1)).
Proof.
  assert (H : (1 <= arity int_pair)%nat) by (cbn; lia).
  assert (H' : Z.of_nat (arity int_pair) <= SIZE_MAX 64)
    by (change (SIZE_MAX 64) with 18446744073709551615; cbn; lia).
  pose proof (tuple_hash_follows_recursion 64 int_pair (1, (2, tt)) [1; 2] eq_refl H H')
    as [_ [_ [Hdigest Hpair]]].
  split; [reflexivity |]. split.
  - exact Hdigest.
  - exact (Hpair int int 1 2).
Defined.

Lemma hash_vector_is_fold_witness :
  hash_of 64 (Vector int) [1; 2] =
  Ok (fold_left (fun seed elem => hash_combine 64 seed (wrap 64 elem)) [1; 2] 0)
  /\ hash_of 64 (Vector int) [] = Ok 0.
Proof.
  destruct (hash_vector_is_fold 64 int (fun o => wrap 64 o) eq_refl) as [H H0].
  split; [apply (H [1; 2]) | exact H0].
Defined.

(** C4, as the specification states it, fails: for a class with both a
    [std::hash] specialisation and a static [hash], two overloads of
    [dispatch_hash] are viable and the call is ambiguous, so [hash_of] does
    not return the result of the static [hash] (here 7). *)
Lemma custom_precedence_counterexample :
  hash_of 64 both_hashes 1 = CompileError ambiguous_call
  /\ hash_of 64 both_hashes 1 <> Ok (wrap 64 7).
Proof. split; [reflexivity | discriminate]. Qed.

(** The order of the elements matters on some inputs ... *)
Lemma vector_order_matters_example :
  hash_of 64 (Vector int) [1; 2] <> hash_of 64 (Vector int) [2; 1].
Proof. vm_compute. discriminate. Qed.

(** ... but not on all: these two distinct [std::size_t] elements give the
    same digest in either order. *)
Lemma vector_order_collision_example :
  18446744071055115847 <> 18374966856760526152
  /\ hash_of 64 (Vector size_type) [18446744071055115847; 18374966856760526152] =
     hash_of 64 (Vector size_type) [18374966856760526152; 18446744071055115847].
Proof. split; [discriminate | reflexivity]. Qed.

Lemma unhashable_type_is_rejected_witness :
  (exists e, torch_hash 64 (Vector (Tuple (TCons by_value int (TCons by_value unhashable TNil))))
             = CompileError e)
  /\ hash_of 64 (Vector unhashable) [] = CompileError no_matching_function.
Proof.
  split.
  - refine (proj1 (unhashable_type_is_rejected 64
              (Vector (Tuple (TCons by_value int (TCons by_value unhashable TNil)))) _ _));
      reflexivity.
  - reflexivity.
Defined.

Lemma tuple_hash_domain_witness :
  hash_of 64 (Tuple int_pair) (1, (2, tt)) = Ok 2654435896
  /\ hash_of 64 (Tuple int_pair) (1, (9, tt)) = Ok 2654436341
  /\ fst (tuple_hash_traced 64 (elements 64 int_pair) 1) = [1%nat; 0%nat]
  /\ is_ok (torch_hash 64 (Tuple (TCons by_value int (TCons by_value unhashable TNil))))
     = false
  /\ last_index 64 (elements 64 TNil) = 18446744073709551615.
Proof.
  assert (H2 : Z.of_nat 2 <= SIZE_MAX 64)
    by (change (SIZE_MAX 64) with 18446744073709551615; cbn; lia).
  destruct (proj1 (tuple_hash_domain 64) int_pair (le_S 1 1 (le_n 1)) H2)
    as [_ [Hhash [_ [_ Htrace]]]].
  destruct (proj1 (tuple_hash_domain 64)
              (TCons by_value int (TCons by_value unhashable TNil))
              (le_S 1 1 (le_n 1)) H2)
    as [_ [_ [_ [Hok _]]]].
  split; [| split; [| split; [| split]]].
  - unfold hash_of. rewrite Hhash. reflexivity.
  - unfold hash_of. rewrite Hhash. reflexivity.
  - exact (proj1 (Htrace eq_refl)).
  - rewrite Hok. reflexivity.
  - exact (proj1 (proj2 (tuple_hash_domain 64))).
Defined.

(** * Further properties of the code *)

Section MoreProperties.

Variable w : positive.

(** ** hash_combine as a function of the value *)

Lemma wrap_sub_l (a b : Z) : wrap w (wrap w a - b) = wrap w (a - b).
Proof. unfold wrap. apply Zminus_mod_idemp_l. Qed.

Lemma lxor_cancel_l (s a b : Z) : Z.lxor s a = Z.lxor s b -> a = b.
Proof.
  intros H.
  rewrite <- (Z.lxor_0_l a), <- (Z.lxor_0_l b), <- (Z.lxor_nilpotent s).
  rewrite !Z.lxor_assoc. now f_equal.
Qed.

Lemma lxor_in_range (a b : Z) : in_range w a -> in_range w b -> in_range w (Z.lxor a b).
Proof.
  intros Ha Hb.
  rewrite <- (wrap_small w b Hb).
  change (Z.lxor a (wrap w b)) with (xor a (wrap w b)).
  rewrite xor_wrap by assumption.
  apply wrap_in_range.
Qed.

(** What is added to the value before the exclusive or with the seed. *)
Lemma hash_combine_offset (seed value : Z) :
  hash_combine w seed value =
  Z.lxor seed (wrap w (value + (0x9e3779b9 + Z.shiftl seed 6 + Z.shiftr seed 2))).
Proof. rewrite hash_combine_unfold. do 2 f_equal. ring. Qed.

Lemma wrap_add_cancel (c v v' : Z) :
  in_range w v -> in_range w v' -> wrap w (v + c) = wrap w (v' + c) -> v = v'.
Proof.
  intros Hv Hv' E.
  rewrite <- (wrap_small w v Hv), <- (wrap_small w v' Hv').
  replace v with (v + c - c) at 1 by ring.
  replace v' with (v' + c - c) at 1 by ring.
  rewrite <- (wrap_sub_l (v + c)), <- (wrap_sub_l (v' + c)).
  now rewrite E.
Qed.

Lemma hash_combine_value_inj (seed v v' : Z) :
  in_range w v -> in_range w v' ->
  hash_combine w seed v = hash_combine w seed v' -> v = v'.
Proof.
  intros Hv Hv'. rewrite !hash_combine_offset. intros E.
  apply lxor_cancel_l in E.
  now apply wrap_add_cancel in E.
Qed.

(** X1.  For a fixed seed, [hash_combine seed] is a bijection of
    [std::size_t]: every digest is reached from exactly one value. *)
Theorem hash_combine_bijective (seed d : Z) :
  in_range w seed -> in_range w d ->
  exists v, in_range w v
            /\ hash_combine w seed v = d
            /\ forall v', in_range w v' -> hash_combine w seed v' = d -> v' = v.
Proof.
  intros Hs Hd.
  set (c := 0x9e3779b9 + Z.shiftl seed 6 + Z.shiftr seed 2).
  exists (wrap w (Z.lxor seed d - c)).
  assert (Hv : hash_combine w seed (wrap w (Z.lxor seed d - c)) = d).
  { rewrite hash_combine_offset. fold c.
    rewrite wrap_add_l.
    replace (Z.lxor seed d - c + c) with (Z.lxor seed d) by ring.
    rewrite wrap_small by now apply lxor_in_range.
    rewrite <- Z.lxor_assoc, Z.lxor_nilpotent. apply Z.lxor_0_l. }
  split; [apply wrap_in_range |]. split; [exact Hv |].
  intros v' Hv' E.
  apply (hash_combine_value_inj seed); [assumption | apply wrap_in_range |].
  now rewrite Hv.
Qed.

(** ** Vectors: extending a hashed prefix *)

Lemma vector_loop_app {T : Type} (h : T -> size_t) (v1 v2 : list T) (seed : size_t) :
  vector_loop w h (v1 ++ v2) seed = vector_loop w h v2 (vector_loop w h v1 seed).
Proof.
  revert seed. induction v1 as [| elem rest IH]; intros seed; cbn; [reflexivity |].
  apply IH.
Qed.

Lemma hash_of_vector (t : type) (h : denote t -> size_t) (v : list (denote t)) :
  torch_hash w t = Ok h -> hash_of w (Vector t) v = Ok (vector_loop w h v 0).
Proof.
  intros E. unfold hash_of.
  change (torch_hash w (Vector t)) with (hash_vector w (torch_hash w t)).
  now rewrite E.
Qed.

Lemma resolved_hasher_in_range (t : type) (h : denote t -> size_t) (o : denote t) :
  torch_hash w t = Ok h -> in_range w (h o).
Proof.
  intros E. apply (hash_of_in_range w t o).
  unfold hash_of. now rewrite E.
Qed.

(** X2.  The digest of a vector can be continued: the digest of [v1 ++ v2]
    is what the loop over [v2] gives when started from the digest of [v1];
    in particular appending one element [x] gives
    [hash_combine (digest of v1) (scalar hash of x)]. *)
Theorem hash_vector_app (t : type) (h : denote t -> size_t)
        (v1 v2 : list (denote t)) (x : denote t) :
  torch_hash w t = Ok h ->
  exists d1,
    hash_of w (Vector t) v1 = Ok d1
    /\ hash_of w (Vector t) (v1 ++ v2) =
       Ok (fold_left (fun seed elem => hash_combine w seed (h elem)) v2 d1)
    /\ hash_of w (Vector t) (v1 ++ [x]) = Ok (hash_combine w d1 (h x)).
Proof.
  intros E. exists (vector_loop w h v1 0).
  rewrite !(hash_of_vector t h) by assumption.
  rewrite !vector_loop_app.
  split; [reflexivity |]. split; [| reflexivity].
  now rewrite (vector_loop_fold_left w h v2).
Qed.

(** X3.  Two vectors that differ only in their last element have the same
    digest only if the two last elements have the same scalar hash. *)
Theorem hash_vector_last_element (t : type) (h : denote t -> size_t)
        (v : list (denote t)) (x y : denote t) :
  torch_hash w t = Ok h ->
  hash_of w (Vector t) (v ++ [x]) = hash_of w (Vector t) (v ++ [y]) ->
  h x = h y.
Proof.
  intros E. rewrite !(hash_of_vector t h) by assumption.
  rewrite !vector_loop_app. cbn [vector_loop]. intros H. inversion H as [H'].
  apply hash_combine_value_inj in H'; trivial; now apply (resolved_hasher_in_range t).
Qed.

(** ** Tuples: the element at index 0 *)

Lemma tuple_hash_first_element (q : ref_qualifier) (A : type) (ts : types)
      (a a' : denote A) (rest : denotes ts) (idx : nat) :
  forall d,
    run (tuple_hash w (elements w (TCons q A ts)) idx) (a, rest) = Ok d ->
    run (tuple_hash w (elements w (TCons q A ts)) idx) (a', rest) = Ok d ->
    hash_of w A a = hash_of w A a'.
Proof.
  assert (Hrange : forall (x : denotes (TCons q A ts)) i r,
            run (tuple_hash w (elements w (TCons q A ts)) i) x = Ok r -> in_range w r).
  { intros x. apply tuple_hash_in_range, hash_of_in_range_mut. }
  induction idx as [| idx IH]; intros d.
  - cbn [tuple_hash]. rewrite !run_element_hash_head. cbn [fst]. congruence.
  - rewrite !run_tuple_hash_S, !run_element_hash_tail. cbn [snd].
    destruct (run (element_hash (elements w ts) idx) rest) as [h |]; [| discriminate].
    destruct (run (tuple_hash w (elements w (TCons q A ts)) idx) (a, rest))
      as [r |] eqn:Er; [| discriminate].
    destruct (run (tuple_hash w (elements w (TCons q A ts)) idx) (a', rest))
      as [r' |] eqn:Er'; [| discriminate].
    cbn. intros E E'. apply (IH r); [reflexivity |].
    f_equal. apply (hash_combine_value_inj h).
    + exact (Hrange _ _ _ Er').
    + exact (Hrange _ _ _ Er).
    + congruence.
Qed.

(** X4.  Two tuples that differ only in the element at index 0 have the
    same digest only if the two elements have the same scalar hash. *)
Theorem hash_tuple_first_element (q : ref_qualifier) (A : type) (ts : types)
        (a a' : denote A) (rest : denotes ts) (d : size_t) :
  Z.of_nat (arity (TCons q A ts)) <= SIZE_MAX w ->
  hash_of w (Tuple (TCons q A ts)) (a, rest) = Ok d ->
  hash_of w (Tuple (TCons q A ts)) (a', rest) = Ok d ->
  hash_of w A a = hash_of w A a'.
Proof.
  intros Hn.
  assert (H1 : (1 <= arity (TCons q A ts))%nat) by (cbn; lia).
  assert (H2 : Z.of_nat (arity (TCons q A ts)) <= modulus w)
    by (unfold SIZE_MAX in Hn; lia).
  rewrite (hash_of_tuple w (TCons q A ts) (a, rest) H1 H2).
  rewrite (hash_of_tuple w (TCons q A ts) (a', rest) H1 H2).
  apply tuple_hash_first_element.
Qed.

(** ** Which types can be hashed *)

Lemma dispatch_hash_viable_overloads {T : Type} (tr : type_traits T) :
  match viable_overloads tr with
  | O => dispatch_hash w tr = CompileError no_matching_function
  | S O => exists h, dispatch_hash w tr = Ok h
  | S (S _) => dispatch_hash w tr = CompileError ambiguous_call
  end.
Proof.
  destruct tr as [R c hR [hT |] | [hs |] [hc |]]; cbn; try reflexivity;
    eexists; reflexivity.
Qed.

Lemma is_ok_dispatch_hash {T : Type} (tr : type_traits T) :
  is_ok (dispatch_hash w tr) = Nat.eqb (viable_overloads tr) 1.
Proof. now destruct tr as [R c hR [hT |] | [hs |] [hc |]]. Qed.

Lemma one_strategy_hashable_mut :
  (forall t, one_strategy t = hashable w t)
  /\ (forall ts, one_strategy_all ts = hashable_all w ts).
Proof.
  apply type_types_ind.
  - intros T tr. cbn. symmetry. apply is_ok_dispatch_hash.
  - intros ts IH. cbn. now rewrite IH.
  - intros t IH. exact IH.
  - reflexivity.
  - intros q t IHt ts IHts. cbn. now rewrite IHt, IHts.
Qed.

(** X5.  A type has a hasher exactly in these cases: a type handled by the
    primary template, when exactly one of the three overloads of
    [dispatch_hash] survives its guard (with none the call has no matching
    function, with two or more it is ambiguous); a tuple type, when it has
    at least one element and every element type has a hasher; a vector
    type, when its element type has one. *)
Theorem hasher_exists_iff_one_strategy (t : type) :
  arities_fit w t = true ->
  ((exists h, torch_hash w t = Ok h) <-> one_strategy t = true)
  /\ (forall T (tr : type_traits T),
         (viable_overloads tr = 0%nat ->
          torch_hash w (Plain T tr) = CompileError no_matching_function)
         /\ ((2 <= viable_overloads tr)%nat ->
             torch_hash w (Plain T tr) = CompileError ambiguous_call)).
Proof.
  intros Hfit. split.
  - rewrite (proj1 one_strategy_hashable_mut t).
    rewrite <- (torch_hash_resolves w t Hfit).
    destruct (torch_hash w t) as [h | e]; cbn.
    + split; [reflexivity | intros _; now exists h].
    + split; [intros [h H]; discriminate | discriminate].
  - intros T tr.
    pose proof (dispatch_hash_viable_overloads tr) as H.
    change (torch_hash w (Plain T tr)) with (dispatch_hash w tr).
    destruct (viable_overloads tr) as [| [| n]]; split; intros Hn;
      try exact H; try discriminate; lia.
Qed.

(** ** get_hash in closed form *)

Lemma tuple_digest_ext (f g : nat -> size_t) (i : nat) :
  (forall j, (j <= i)%nat -> f j = g j) -> tuple_digest w f i = tuple_digest w g i.
Proof.
  induction i as [| i IH]; intros H; cbn [tuple_digest].
  - apply H. lia.
  - rewrite (H (S i)) by lia. f_equal. apply IH. intros j Hj. apply H. lia.
Qed.

Lemma tuple_digest_fold_left (d0 : size_t) (rest : list size_t) :
  tuple_digest w (fun i => nth i (d0 :: rest) 0) (length rest) =
  fold_left (fun acc d => hash_combine w d acc) rest d0.
Proof.
  induction rest as [| x r IH] using rev_ind; [reflexivity |].
  rewrite length_app, Nat.add_1_r, fold_left_app. cbn [tuple_digest fold_left].
  rewrite <- IH. f_equal.
  - cbn [nth]. rewrite app_nth2 by lia. now rewrite Nat.sub_diag.
  - apply tuple_digest_ext. intros j Hj.
    destruct j as [| j]; [reflexivity |]. cbn [nth]. apply app_nth1. lia.
Qed.

(** X6.  For arguments with the scalar hashes [d0, d1, ..., dn],
    [get_hash] returns
    [hash_combine dn (... (hash_combine d2 (hash_combine d1 d0)))]:
    the first argument's hash is the innermost value, and each further
    argument's hash is the seed of the next [hash_combine]. *)
Theorem get_hash_closed_form (ts : types) (args : denotes ts)
        (d0 : size_t) (rest : list size_t) :
  scalar_hashes w ts args = map Ok (d0 :: rest) ->
  Z.of_nat (arity ts) <= SIZE_MAX w ->
  get_hash w ts args = Ok (fold_left (fun acc d => hash_combine w d acc) rest d0).
Proof.
  intros E Hn.
  assert (Hlen : arity ts = S (length rest)).
  { rewrite <- (length_scalar_hashes w ts args), E. now rewrite length_map. }
  rewrite get_hash_hash_of, hash_of_tuple by (unfold SIZE_MAX in Hn; lia).
  rewrite (run_tuple_hash_digest w ts args (d0 :: rest) E) by (cbn [length]; lia).
  now rewrite Hlen, <- tuple_digest_fold_left.
Qed.

End MoreProperties.

(** ** Instances at a 64-bit std::size_t *)

Lemma in_range_64_small (z : Z) : 0 <= z < 1000 -> in_range 64 z.
Proof.
  intros H. unfold in_range. change (modulus 64) with 18446744073709551616. lia.
Defined.

Lemma hash_combine_bijective_witness :
  exists v, in_range 64 v
            /\ hash_combine 64 1 v = 2
            /\ forall v', in_range 64 v' -> hash_combine 64 1 v' = 2 -> v' = v.
Proof.
  apply (hash_combine_bijective 64 1 2); apply in_range_64_small; lia.
Defined.

Lemma hash_vector_app_witness :
  exists d1,
    hash_of 64 (Vector int) [1] = Ok d1
    /\ hash_of 64 (Vector int) ([1] ++ [2; 3]) =
       Ok (fold_left (fun seed elem => hash_combine 64 seed (wrap 64 elem)) [2; 3] d1)
    /\ hash_of 64 (Vector int) ([1] ++ [4]) = Ok (hash_combine 64 d1 (wrap 64 4)).
Proof.
  exact (hash_vector_app 64 int (fun o => wrap 64 o) [1] [2; 3] 4 eq_refl).
Defined.

(** Two values of a class whose [std::hash] looks at the parity only. *)
Lemma hash_vector_last_element_witness :
  hash_of 64 (Vector (Plain Z (integral_type (fun o => o mod 2)))) ([1] ++ [3]) =
  hash_of 64 (Vector (Plain Z (integral_type (fun o => o mod 2)))) ([1] ++ [5])
  /\ wrap 64 (3 mod 2) = wrap 64 (5 mod 2).
Proof.
  split; [reflexivity |].
  exact (hash_vector_last_element 64 (Plain Z (integral_type (fun o => o mod 2)))
           (fun o => wrap 64 (o mod 2)) [1] 3 5 eq_refl eq_refl).
Defined.

Lemma hash_tuple_first_element_witness :
  hash_of 64 (Tuple (TCons by_value (Plain Z (integral_type (fun o => o mod 2)))
                       (TCons by_value int TNil))) (3, (7, tt)) =
  hash_of 64 (Tuple (TCons by_value (Plain Z (integral_type (fun o => o mod 2)))
                       (TCons by_value int TNil))) (5, (7, tt))
  /\ hash_of 64 (Plain Z (integral_type (fun o => o mod 2))) 3 =
     hash_of 64 (Plain Z (integral_type (fun o => o mod 2))) 5.
Proof.
  split; [reflexivity |].
  refine (hash_tuple_first_element 64 by_value
            (Plain Z (integral_type (fun o => o mod 2)))
            (TCons by_value int TNil) 3 5 (7, tt)
            (hash_combine 64 7 1) _ eq_refl eq_refl).
  change (SIZE_MAX 64) with 18446744073709551615. cbn; lia.
Defined.

Lemma hasher_exists_iff_one_strategy_witness :
  (exists h, torch_hash 64 (Vector (Tuple int_pair)) = Ok h)
  /\ ~ (exists h, torch_hash 64 (Vector both_hashes) = Ok h)
  /\ torch_hash 64 both_hashes = CompileError ambiguous_call
  /\ torch_hash 64 unhashable = CompileError no_matching_function.
Proof.
  split; [| split; [| split]].
  - apply (proj2 (proj1
             (hasher_exists_iff_one_strategy 64 (Vector (Tuple int_pair)) eq_refl))).
    reflexivity.
  - intros H.
    apply (proj1 (proj1
             (hasher_exists_iff_one_strategy 64 (Vector both_hashes) eq_refl))) in H.
    discriminate H.
  - apply (proj2 (hasher_exists_iff_one_strategy 64 int eq_refl)
             Z (non_enum_type (Some (fun o => o)) (Some (fun _ => 7)))).
    cbn; lia.
  - apply (proj2 (hasher_exists_iff_one_strategy 64 int eq_refl)
             unit (non_enum_type None None)).
    reflexivity.
Defined.

Lemma get_hash_closed_form_witness :
  get_hash 64 (TCons by_value int (TCons by_value int (TCons by_value int TNil)))
           (1, (2, (3, tt))) =
  Ok (hash_combine 64 3 (hash_combine 64 2 1)).
Proof.
  refine (get_hash_closed_form 64
            (TCons by_value int (TCons by_value int (TCons by_value int TNil)))
            (1, (2, (3, tt))) 1 [2; 3] eq_refl _).
  change (SIZE_MAX 64) with 18446744073709551615. cbn; lia.
Defined.
